(** * core-js-101, 05-objects-tasks.js: the rectangle factory and the
      CSS selector builder.

    The builder is the object literal [cssSelectorBuilder].  Each of its
    methods allocates a new object with [Object.create(cssSelectorBuilder)],
    assigns some own properties on it and returns it; every property the new
    object does not own is read through its prototype, the singleton.  The
    model keeps that store: a world holds the singleton, the objects made
    from it (with their own properties only) and the console, and the
    methods run in a state-and-exception monad over worlds. *)

From Stdlib Require Import ZArith.
From stdpp Require Import base option list sorting gmap strings.

Local Open Scope Z_scope.

(** ** Rectangle *)

Section Rectangle.

(** JavaScript numbers and their product [*]; the factory only stores its
    arguments and closes over them, whatever the arithmetic is. *)
Variable number : Type.
Variable times : number -> number -> number.

Record rectangle := {
  height : number;
  width : number;
  getArea : unit -> number
}.

Definition Rectangle (width height : number) : rectangle :=
  {| height := height;
     width := width;
     getArea := fun _ => times width height |}.

End Rectangle.

Arguments height {number} _.
Arguments width {number} _.
Arguments getArea {number} _ _.
Arguments Rectangle {number} times width height.

Module cssSelectorBuilder.

(** ** Objects and the store *)

(** The data properties of the object literal. *)
Record literal := Literal {
  result : string;
  order : Z;
  occurEl : Z;
  occurId : Z;
  occurPE : Z
}.

(** The own data properties of an object made by
    [Object.create(cssSelectorBuilder)]: [None] is a property the object
    does not own, which is then looked up in the prototype. *)
Record own := Own {
  own_result : option string;
  own_order : option Z;
  own_occurEl : option Z;
  own_occurId : option Z;
  own_occurPE : option Z
}.

Definition no_own : own := Own None None None None None.

Definition loc := positive.

(** A reference to a builder object: the singleton itself or an object
    derived from it. *)
Inductive ref :=
  | Singleton
  | Derived (l : loc).

Record world := World {
  proto : literal;
  objs : gmap loc own;
  console : list Z
}.

(** [const cssSelectorBuilder = { result: '', order: 0, occurEl: 0, ... }] *)
Definition declared : literal := Literal "" 0 0 0 0.

Definition init : world := World declared ∅ [].

(** The own properties stored at [l]; an address that holds no object has
    none (no run produces such a reference). *)
Definition own_at (l : loc) (w : world) : own := default no_own (objs w !! l).

(** Property reads, [o.p]: the own property if there is one, the
    prototype's otherwise. *)
Definition read_result (o : ref) (w : world) : string :=
  match o with
  | Singleton => result (proto w)
  | Derived l => default (result (proto w)) (own_result (own_at l w))
  end.

Definition read_order (o : ref) (w : world) : Z :=
  match o with
  | Singleton => order (proto w)
  | Derived l => default (order (proto w)) (own_order (own_at l w))
  end.

Definition read_occurEl (o : ref) (w : world) : Z :=
  match o with
  | Singleton => occurEl (proto w)
  | Derived l => default (occurEl (proto w)) (own_occurEl (own_at l w))
  end.

Definition read_occurId (o : ref) (w : world) : Z :=
  match o with
  | Singleton => occurId (proto w)
  | Derived l => default (occurId (proto w)) (own_occurId (own_at l w))
  end.

Definition read_occurPE (o : ref) (w : world) : Z :=
  match o with
  | Singleton => occurPE (proto w)
  | Derived l => default (occurPE (proto w)) (own_occurPE (own_at l w))
  end.

(** Property writes, [o.p = v]: always an own property of [o]. *)
Definition set_proto (f : literal -> literal) (w : world) : world :=
  World (f (proto w)) (objs w) (console w).

Definition set_own (l : loc) (f : own -> own) (w : world) : world :=
  World (proto w) (<[l := f (own_at l w)]> (objs w)) (console w).

Definition write_result (o : ref) (v : string) (w : world) : world :=
  match o with
  | Singleton =>
      set_proto (fun p => Literal v (order p) (occurEl p) (occurId p) (occurPE p)) w
  | Derived l =>
      set_own l (fun p => Own (Some v) (own_order p) (own_occurEl p)
                              (own_occurId p) (own_occurPE p)) w
  end.

Definition write_order (o : ref) (v : Z) (w : world) : world :=
  match o with
  | Singleton =>
      set_proto (fun p => Literal (result p) v (occurEl p) (occurId p) (occurPE p)) w
  | Derived l =>
      set_own l (fun p => Own (own_result p) (Some v) (own_occurEl p)
                              (own_occurId p) (own_occurPE p)) w
  end.

Definition write_occurEl (o : ref) (v : Z) (w : world) : world :=
  match o with
  | Singleton =>
      set_proto (fun p => Literal (result p) (order p) v (occurId p) (occurPE p)) w
  | Derived l =>
      set_own l (fun p => Own (own_result p) (own_order p) (Some v)
                              (own_occurId p) (own_occurPE p)) w
  end.

Definition write_occurId (o : ref) (v : Z) (w : world) : world :=
  match o with
  | Singleton =>
      set_proto (fun p => Literal (result p) (order p) (occurEl p) v (occurPE p)) w
  | Derived l =>
      set_own l (fun p => Own (own_result p) (own_order p) (own_occurEl p)
                              (Some v) (own_occurPE p)) w
  end.

Definition write_occurPE (o : ref) (v : Z) (w : world) : world :=
  match o with
  | Singleton =>
      set_proto (fun p => Literal (result p) (order p) (occurEl p) (occurId p) v) w
  | Derived l =>
      set_own l (fun p => Own (own_result p) (own_order p) (own_occurEl p)
                              (own_occurId p) (Some v)) w
  end.

(** ** Computations: state over worlds, with [throw] *)

(** [new Error(message)] *)
Inductive exn := Error (message : string).

Inductive completion (A : Type) :=
  | Normal (a : A)
  | Throw (e : exn).
Arguments Normal {A} a.
Arguments Throw {A} e.

Definition js (A : Type) : Type := world -> completion A * world.

Definition ret {A} (a : A) : js A := fun w => (Normal a, w).

Definition throw {A} (e : exn) : js A := fun w => (Throw e, w).

Definition bind {A B} (m : js A) (k : A -> js B) : js B :=
  fun w =>
    match m w with
    | (Normal a, w') => k a w'
    | (Throw e, w') => (Throw e, w')
    end.

Declare Scope js_scope.
Delimit Scope js_scope with js.
Notation "x <- m ;; k" := (bind m (fun x => k))
  (at level 100, m at next level, right associativity) : js_scope.
Notation "m ;; k" := (bind m (fun _ => k))
  (at level 100, right associativity) : js_scope.
Local Open Scope js_scope.

Definition get {A} (rd : world -> A) : js A := fun w => (Normal (rd w), w).

Definition put (wr : world -> world) : js unit := fun w => (Normal tt, wr w).

(** [console.log(v)] *)
Definition console_log (v : Z) : js unit :=
  put (fun w => World (proto w) (objs w) (console w ++ [v])).

(** [Object.create(cssSelectorBuilder)]: a new object without own
    properties, at an address not in use. *)
Definition Object_create : js ref :=
  fun w =>
    let l := fresh (dom (objs w)) in
    (Normal (Derived l), World (proto w) (<[l := no_own]> (objs w)) (console w)).

(** ** The methods of [cssSelectorBuilder] *)

Definition order_message : string :=
  "Selector parts should be arranged in the following order: element, id, class, attribute, pseudo-class, pseudo-element".

Definition occur_message : string :=
  "Element, id and pseudo-element should not occur more then one time inside the selector".

(** The two errors of the builder, under the names the specification
    gives them. *)
Definition OrderViolation : exn := Error order_message.
Definition CardinalityViolation : exn := Error occur_message.

Definition checkOrder (this : ref) (order : Z) : js unit :=
  this_order <- get (read_order this);;
  if this_order >? order then throw (Error order_message) else ret tt.

Definition checkOccur (occur : Z) : js unit :=
  if occur =? 1
  then console_log occur;; throw (Error occur_message)
  else ret tt.

Definition element (this : ref) (value : string) : js ref :=
  checkOrder this 1;;
  occur <- get (read_occurEl this);;
  checkOccur occur;;
  cssObject <- Object_create;;
  put (write_order cssObject 1);;
  put (write_occurEl cssObject 1);;
  this_result <- get (read_result this);;
  put (write_result cssObject (this_result +:+ value));;
  ret cssObject.

Definition id (this : ref) (value : string) : js ref :=
  checkOrder this 2;;
  occur <- get (read_occurId this);;
  checkOccur occur;;
  cssObject <- Object_create;;
  put (write_order cssObject 2);;
  put (write_occurId cssObject 1);;
  this_result <- get (read_result this);;
  put (write_result cssObject (this_result +:+ "#" +:+ value));;
  ret cssObject.

Definition class (this : ref) (value : string) : js ref :=
  checkOrder this 3;;
  cssObject <- Object_create;;
  put (write_order cssObject 3);;
  this_result <- get (read_result this);;
  put (write_result cssObject (this_result +:+ "." +:+ value));;
  ret cssObject.

Definition attr (this : ref) (value : string) : js ref :=
  checkOrder this 4;;
  cssObject <- Object_create;;
  put (write_order cssObject 4);;
  this_result <- get (read_result this);;
  put (write_result cssObject (this_result +:+ "[" +:+ value +:+ "]"));;
  ret cssObject.

Definition pseudoClass (this : ref) (value : string) : js ref :=
  checkOrder this 5;;
  cssObject <- Object_create;;
  put (write_order cssObject 5);;
  this_result <- get (read_result this);;
  put (write_result cssObject (this_result +:+ ":" +:+ value));;
  ret cssObject.

Definition pseudoElement (this : ref) (value : string) : js ref :=
  checkOrder this 6;;
  occur <- get (read_occurPE this);;
  checkOccur occur;;
  cssObject <- Object_create;;
  put (write_order cssObject 6);;
  put (write_occurPE cssObject 1);;
  this_result <- get (read_result this);;
  put (write_result cssObject (this_result +:+ "::" +:+ value));;
  ret cssObject.

Definition combine (selector1 : ref) (combinator : string) (selector2 : ref)
  : js ref :=
  comb <- Object_create;;
  result1 <- get (read_result selector1);;
  result2 <- get (read_result selector2);;
  put (write_result comb (result1 +:+ " " +:+ combinator +:+ " " +:+ result2));;
  ret comb.

Definition stringify (this : ref) : js string :=
  get (read_result this).

(** ** The six add-operations under one name *)

(** The selector parts, in the order of the specification's table. *)
Inductive part :=
  | Element | Id | Class | Attribute | PseudoClass | PseudoElement.

(** The constant each method passes to [checkOrder] and assigns to
    [cssObject.order]. *)
Definition ordinal (p : part) : Z :=
  match p with
  | Element => 1
  | Id => 2
  | Class => 3
  | Attribute => 4
  | PseudoClass => 5
  | PseudoElement => 6
  end.

Definition add (p : part) : ref -> string -> js ref :=
  match p with
  | Element => element
  | Id => id
  | Class => class
  | Attribute => attr
  | PseudoClass => pseudoClass
  | PseudoElement => pseudoElement
  end.

(** What each method appends to [this.result]. *)
Definition formatted (p : part) (value : string) : string :=
  match p with
  | Element => value
  | Id => "#" +:+ value
  | Class => "." +:+ value
  | Attribute => "[" +:+ value +:+ "]"
  | PseudoClass => ":" +:+ value
  | PseudoElement => "::" +:+ value
  end.

(** The parts whose method calls [checkOccur]. *)
Definition once (p : part) : bool :=
  match p with
  | Element | Id | PseudoElement => true
  | Class | Attribute | PseudoClass => false
  end.

(** The occurrence property a method hands to [checkOccur] and sets on the
    new object; the methods for the other parts read and set none. *)
Definition read_occur (p : part) (o : ref) (w : world) : option Z :=
  match p with
  | Element => Some (read_occurEl o w)
  | Id => Some (read_occurId o w)
  | PseudoElement => Some (read_occurPE o w)
  | Class | Attribute | PseudoClass => None
  end.

(** A chain of method calls [this.m1(v1).m2(v2)...]. *)
Fixpoint chain (calls : list (part * string)) (this : ref) : js ref :=
  match calls with
  | [] => ret this
  | (p, value) :: rest => b <- add p this value;; chain rest b
  end.

(** [n] calls of [this.stringify()] in a row, with what each returned. *)
Fixpoint stringify_times (n : nat) (this : ref) : js (list string) :=
  match n with
  | O => ret []
  | S n' => s <- stringify this;; rest <- stringify_times n' this;; ret (s :: rest)
  end.

(** The double-quote character, as a string. *)
Definition dquote : string := String (Ascii.ascii_of_nat 34) EmptyString.

(** ** Vocabulary of the statements *)

(** [o] refers to an object of the store. *)
Definition allocated (o : ref) (w : world) : Prop :=
  match o with
  | Singleton => True
  | Derived l => l ∈ dom (objs w)
  end.

(** Everything a caller can read from a builder. *)
Definition snapshot (o : ref) (w : world) : string * Z * Z * Z * Z :=
  (read_result o w, read_order o w,
   read_occurEl o w, read_occurId o w, read_occurPE o w).

(** From [w] to [w'] the singleton and every object of [w] are as they
    were. *)
Definition frame (w w' : world) : Prop :=
  proto w' = proto w ∧ ∀ l, l ∈ dom (objs w) → objs w' !! l = objs w !! l.

(** The world once a new object with own properties [o] is stored at [l]. *)
Definition extend (l : loc) (o : own) (w : world) : world :=
  World (proto w) (<[l := o]> (objs w)) (console w).

(** The own properties the method for [p] has assigned when it returns:
    [result], [order], and the occurrence property of its own part. *)
Definition assigned (p : part) (s : string) : own :=
  Own (Some s) (Some (ordinal p))
      (match p with Element => Some 1 | _ => None end)
      (match p with Id => Some 1 | _ => None end)
      (match p with PseudoElement => Some 1 | _ => None end).

(** The parts in [applied] have left their mark on builder [b]: its
    [order] has reached the ordinal of each one-time part among them, and
    where [order] is exactly that ordinal the part's occurrence property
    reads 1. *)
Definition marked (applied : list part) (b : ref) (w : world) : Prop :=
  ∀ p, p ∈ applied → once p = true →
    ordinal p ≤ read_order b w
    ∧ (read_order b w = ordinal p → read_occur p b w = Some 1).

(** The worlds a program can be in that starts from the declaration and
    only calls the methods. *)
Inductive reachable : world → Prop :=
  | reachable_init : reachable init
  | reachable_add p this value w :
      reachable w → reachable (snd (add p this value w))
  | reachable_combine selector1 combinator selector2 w :
      reachable w →
      reachable (snd (combine selector1 combinator selector2 w)).

(** What a chain of calls appends to the receiver's [result]. *)
Fixpoint rendered (calls : list (part * string)) : string :=
  match calls with
  | [] => ""
  | (p, value) :: rest => formatted p value +:+ rendered rest
  end.

(** A sequence of parts in the order of the selector grammar, with each
    one-time part at most once:
    [element? id? class* attr* pseudoClass* pseudoElement?]. *)
Definition grammatical (parts : list part) : Prop :=
  StronglySorted (λ p q, ordinal p ≤ ordinal q) parts
  ∧ NoDup (filter (λ p, once p = true) parts).

(** A builder nothing has been added to: the singleton as declared, or
    what [combine] returns. *)
Definition blank (b : ref) (w : world) : Prop :=
  read_order b w = 0
  ∧ read_occurEl b w ≠ 1 ∧ read_occurId b w ≠ 1 ∧ read_occurPE b w ≠ 1.

(** A builder as the method for [p] leaves it while the singleton holds
    its declared values. *)
Definition just_added (p : part) (b : ref) (w : world) : Prop :=
  read_order b w = ordinal p
  ∧ ∀ q, once q = true → (read_occur q b w = Some 1 ↔ q = p).

(** The two shapes of a stored object: made by an add-operation or by
    [combine]. *)
Definition shaped (o : own) : Prop :=
  (∃ p s, o = assigned p s) ∨ (∃ s, o = Own (Some s) None None None None).

(** What a caller sees of a call: the error thrown, or everything the
    returned builder reads. *)
Definition observe (r : completion ref * world)
  : completion (string * Z * Z * Z * Z) :=
  match r with
  | (Normal b, w) => Normal (snapshot b w)
  | (Throw e, _) => Throw e
  end.

(** ** Proof steps on the store *)

(** Whether the address read is the address written. *)
Ltac by_cases_on_address l l' :=
  unfold own_at; simpl;
  destruct (decide (l = l')) as [->|];
  [rewrite ?lookup_insert_eq | rewrite ?lookup_insert_ne by done]; simpl.

(** A read through reference [o] after a write at address [l]. *)
Ltac read_through o l :=
  let l' := fresh "l" in
  destruct o as [|l']; [reflexivity|]; simpl; by_cases_on_address l l'.

(** Successive writes to one new object add up to one stored record. *)
Ltac store_eq :=
  unfold extend, write_result, write_order, write_occurEl, write_occurId,
    write_occurPE, set_own, own_at; simpl;
  repeat (rewrite ?lookup_insert_eq, ?insert_insert_eq; simpl);
  try reflexivity.

(** ** How the methods run *)

Lemma fresh_unused w : objs w !! fresh (dom (objs w)) = None.
Proof. apply not_elem_of_dom, is_fresh. Qed.

(** Reading [result] sees neither the allocation of an unused address nor
    the assignments to the other properties. *)
Lemma read_result_alloc o l w :
  objs w !! l = None → read_result o (extend l no_own w) = read_result o w.
Proof. intros Hl. read_through o l; [rewrite Hl|]; reflexivity. Qed.

Lemma read_result_write_order o l v w :
  read_result o (write_order (Derived l) v w) = read_result o w.
Proof. read_through o l; reflexivity. Qed.

Lemma read_result_write_occurEl o l v w :
  read_result o (write_occurEl (Derived l) v w) = read_result o w.
Proof. read_through o l; reflexivity. Qed.

Lemma read_result_write_occurId o l v w :
  read_result o (write_occurId (Derived l) v w) = read_result o w.
Proof. read_through o l; reflexivity. Qed.

Lemma read_result_write_occurPE o l v w :
  read_result o (write_occurPE (Derived l) v w) = read_result o w.
Proof. read_through o l; reflexivity. Qed.

(** The outcome of every add-operation in closed form: the order check,
    then the occurrence check (which logs before it throws), then the new
    object. *)
Lemma add_run p this value w :
  add p this value w =
    if read_order this w >? ordinal p then (Throw OrderViolation, w)
    else if bool_decide (read_occur p this w = Some 1)
    then (Throw CardinalityViolation,
          World (proto w) (objs w) (console w ++ [1]))
    else (Normal (Derived (fresh (dom (objs w)))),
          extend (fresh (dom (objs w)))
                 (assigned p (read_result this w +:+ formatted p value)) w).
Proof.
  destruct p;
    cbv [add element id class attr pseudoClass pseudoElement bind get put
         throw ret console_log Object_create checkOrder checkOccur ordinal
         read_occur formatted];
    destruct (read_order this w >? _); try reflexivity.
  all: try match goal with
           | |- context [?x =? 1] => destruct (Z.eqb_spec x 1) as [E|E]
           end.
  all: try (rewrite bool_decide_eq_true_2 by congruence).
  all: try (rewrite bool_decide_eq_false_2 by congruence).
  all: try (rewrite E; reflexivity).
  all: fold (extend (fresh (dom (objs w))) no_own w).
  all: rewrite ?read_result_write_occurEl, ?read_result_write_occurId,
         ?read_result_write_occurPE, ?read_result_write_order,
         read_result_alloc by apply fresh_unused.
  all: f_equal; store_eq.
Qed.

Lemma combine_run selector1 combinator selector2 w :
  combine selector1 combinator selector2 w =
    (Normal (Derived (fresh (dom (objs w)))),
     extend (fresh (dom (objs w)))
       (Own (Some (read_result selector1 w +:+ " " +:+ combinator +:+ " "
                   +:+ read_result selector2 w)) None None None None) w).
Proof.
  cbv [combine bind get put ret Object_create].
  fold (extend (fresh (dom (objs w))) no_own w).
  rewrite !read_result_alloc by apply fresh_unused.
  f_equal; store_eq.
Qed.

(** The two messages differ, so the two errors are told apart. *)
Lemma errors_differ : OrderViolation ≠ CardinalityViolation.
Proof. discriminate. Qed.

(** ** Reading the new object, and the old ones *)

Lemma snapshot_new l o w :
  snapshot (Derived l) (extend l o w) =
    (default (result (proto w)) (own_result o),
     default (order (proto w)) (own_order o),
     default (occurEl (proto w)) (own_occurEl o),
     default (occurId (proto w)) (own_occurId o),
     default (occurPE (proto w)) (own_occurPE o)).
Proof.
  unfold snapshot, read_result, read_order, read_occurEl, read_occurId,
    read_occurPE, own_at, extend; simpl.
  rewrite lookup_insert_eq. reflexivity.
Qed.

Lemma snapshot_fields o w r n el i pe :
  snapshot o w = (r, n, el, i, pe) →
  read_result o w = r ∧ read_order o w = n ∧ read_occurEl o w = el
  ∧ read_occurId o w = i ∧ read_occurPE o w = pe.
Proof. unfold snapshot. intros H. by injection H. Qed.

Lemma frame_refl w : frame w w.
Proof. split; auto. Qed.

Lemma frame_extend l o w : objs w !! l = None → frame w (extend l o w).
Proof.
  intros Hl. split; [reflexivity|]. intros l' Hl'. simpl.
  apply lookup_insert_ne. intros ->.
  apply elem_of_dom in Hl'. rewrite Hl in Hl'. by destruct Hl'.
Qed.

Lemma frame_console w out : frame w (World (proto w) (objs w) out).
Proof. split; auto. Qed.

Lemma frame_snapshot o w w' :
  frame w w' → allocated o w → snapshot o w' = snapshot o w.
Proof.
  intros [Hp Ho] Ha.
  unfold snapshot, read_result, read_order, read_occurEl, read_occurId,
    read_occurPE, own_at.
  destruct o as [|l]; rewrite Hp; [reflexivity|].
  rewrite (Ho l Ha). reflexivity.
Qed.

Lemma snapshot_assigned l p s w :
  snapshot (Derived l) (extend l (assigned p s) w) =
    (s, ordinal p,
     match p with Element => 1 | _ => occurEl (proto w) end,
     match p with Id => 1 | _ => occurId (proto w) end,
     match p with PseudoElement => 1 | _ => occurPE (proto w) end).
Proof. rewrite snapshot_new. destruct p; reflexivity. Qed.

Lemma read_order_assigned l p s w :
  read_order (Derived l) (extend l (assigned p s) w) = ordinal p.
Proof.
  pose proof (snapshot_assigned l p s w) as H. unfold snapshot in H.
  by injection H.
Qed.

Lemma read_result_assigned l p s w :
  read_result (Derived l) (extend l (assigned p s) w) = s.
Proof.
  pose proof (snapshot_assigned l p s w) as H. unfold snapshot in H.
  by injection H.
Qed.

Lemma read_occur_assigned l p s w :
  once p = true →
  read_occur p (Derived l) (extend l (assigned p s) w) = Some 1.
Proof.
  intros Hp. pose proof (snapshot_assigned l p s w) as H. unfold snapshot in H.
  injection H as _ _ HEl HId HPE.
  destruct p; try discriminate Hp; simpl; by f_equal.
Qed.

(** What a successful add-operation went through and what it returned. *)
Lemma add_success p this value w b w' :
  add p this value w = (Normal b, w') →
  read_order this w ≤ ordinal p
  ∧ read_occur p this w ≠ Some 1
  ∧ b = Derived (fresh (dom (objs w)))
  ∧ w' = extend (fresh (dom (objs w)))
                (assigned p (read_result this w +:+ formatted p value)) w.
Proof.
  rewrite add_run.
  destruct (Z.gtb_spec (read_order this w) (ordinal p)); [discriminate|].
  case_bool_decide; [discriminate|].
  intros [= <- <-]. auto.
Qed.

(** ** The order check *)

(** C1. For every builder and every add-operation (ordinals: element 1,
    id 2, class 3, attribute 4, pseudo-class 5, pseudo-element 6), the call
    throws the order error exactly when the ordinal is below the receiver's
    [order]; with the ordinal equal to [order] no order error is thrown; and
    [id] called on what [class] returned throws the order error. *)
Theorem order_violation_exactly
    (p : part) (this : ref) (value : string) (w : world) :
  (fst (add p this value w) = Throw OrderViolation
   ↔ ordinal p < read_order this w)
  ∧ (ordinal p = read_order this w →
     fst (add p this value w) ≠ Throw OrderViolation)
  ∧ (∀ b w1 x,
       class this value w = (Normal b, w1) →
       fst (id b x w1) = Throw OrderViolation).
Proof.
  assert (Hiff : fst (add p this value w) = Throw OrderViolation
                 ↔ ordinal p < read_order this w).
  { rewrite add_run.
    destruct (Z.gtb_spec (read_order this w) (ordinal p)) as [Hlt|Hge]; simpl.
    - tauto.
    - split; [|lia]. case_bool_decide; simpl; discriminate. }
  split; [exact Hiff|]. split.
  - intros Heq Hthrow. apply Hiff in Hthrow. lia.
  - intros b w1 x Hclass.
    apply (add_success Class) in Hclass as (_ & _ & -> & ->).
    change (id ?b x ?w) with (add Id b x w). rewrite add_run.
    rewrite read_order_assigned. reflexivity.
Qed.

(** [builder.class('container')]: a further [class] passes the order
    check, [id] throws the order error. *)
Lemma order_violation_exactly_witness :
  ∃ b w1,
    class Singleton "container" init = (Normal b, w1)
    ∧ fst (id b "main" w1) = Throw OrderViolation
    ∧ ordinal Class = read_order b w1
    ∧ fst (add Class b "editable" w1) ≠ Throw OrderViolation.
Proof.
  eexists _, _. split; [vm_compute; reflexivity|]. split; [|split].
  - eapply (proj2 (proj2
      (order_violation_exactly Class Singleton "container" init))).
    vm_compute; reflexivity.
  - vm_compute; reflexivity.
  - eapply (proj1 (proj2 (order_violation_exactly Class _ "editable" _))).
    vm_compute; reflexivity.
Defined.

(** C8. A successful add-operation returns a builder whose [order] is at
    least the receiver's, and so does every chain of successful
    add-operations. *)
Theorem order_non_decreasing :
  (∀ p this value w b w',
     add p this value w = (Normal b, w') →
     read_order this w ≤ read_order b w')
  ∧ (∀ calls this w b w',
       chain calls this w = (Normal b, w') →
       read_order this w ≤ read_order b w').
Proof.
  assert (Hstep : ∀ p this value w b w',
             add p this value w = (Normal b, w') →
             read_order this w ≤ read_order b w').
  { intros p this value w b w' Hadd.
    apply add_success in Hadd as (Hle & _ & -> & ->).
    by rewrite read_order_assigned. }
  split; [exact Hstep|].
  induction calls as [|[p value] rest IH]; intros this w b w' Hchain.
  - injection Hchain as <- <-. lia.
  - simpl in Hchain. unfold bind in Hchain.
    destruct (add p this value w) as [[b1|e] w1] eqn:Hadd; [|discriminate].
    apply Hstep in Hadd. apply IH in Hchain. lia.
Qed.

(** [builder.id('main').class('container').class('editable')]: the orders
    along the chain are 0, 2, 3, 3. *)
Lemma order_non_decreasing_witness :
  ∃ b w',
    chain [(Id, "main"); (Class, "container"); (Class, "editable")]
          Singleton init = (Normal b, w')
    ∧ read_order Singleton init ≤ read_order b w'
    ∧ read_order b w' = 3.
Proof.
  eexists _, _. split; [vm_compute; reflexivity|]. split.
  - apply (proj2 order_non_decreasing
             [(Id, "main"); (Class, "container"); (Class, "editable")]).
    vm_compute; reflexivity.
  - vm_compute; reflexivity.
Defined.

(** ** The occurrence check *)

Lemma ordinal_inj p q : ordinal p = ordinal q → p = q.
Proof. destruct p, q; simpl; intros H; try reflexivity; discriminate H. Qed.

Lemma marked_add applied q this value w b w' :
  marked applied this w →
  add q this value w = (Normal b, w') →
  marked (q :: applied) b w'.
Proof.
  intros Hm Hadd p Hp Honce.
  apply add_success in Hadd as (Hle & _ & -> & ->).
  rewrite read_order_assigned.
  assert (Hq : p = q → ordinal p ≤ ordinal q
                       ∧ (ordinal q = ordinal p →
                          read_occur p (Derived (fresh (dom (objs w))))
                            (extend (fresh (dom (objs w)))
                               (assigned q (read_result this w +:+
                                            formatted q value)) w) = Some 1)).
  { intros ->. split; [lia|]. intros _. by apply read_occur_assigned. }
  apply elem_of_cons in Hp as [Heq|Hin]; [by apply Hq|].
  destruct (Hm p Hin Honce) as [Hreached _].
  split; [lia|].
  intros Hsame. apply Hq; [|exact Hsame]. symmetry. by apply ordinal_inj.
Qed.

Lemma marked_chain calls : ∀ applied this w b w',
  marked applied this w →
  chain calls this w = (Normal b, w') →
  marked (reverse calls.*1 ++ applied) b w'.
Proof.
  induction calls as [|[q value] rest IH]; intros applied this w b w' Hm Hchain.
  - injection Hchain as <- <-. exact Hm.
  - simpl in Hchain. unfold bind in Hchain.
    destruct (add q this value w) as [[b1|e] w1] eqn:Hadd; [|discriminate].
    simpl. rewrite reverse_cons, <- app_assoc. simpl.
    eapply IH; [|exact Hchain]. eapply marked_add; eauto.
Qed.

(** When the occurrence error is thrown. *)
Lemma cardinality_violation_iff p this value w :
  fst (add p this value w) = Throw CardinalityViolation
  ↔ read_order this w ≤ ordinal p ∧ read_occur p this w = Some 1.
Proof.
  rewrite add_run.
  destruct (Z.gtb_spec (read_order this w) (ordinal p)) as [Hlt|Hge]; simpl.
  - split; [discriminate|lia].
  - case_bool_decide; simpl; [tauto|]. split; [discriminate|tauto].
Qed.

(** C2, as stated, fails: after
    [builder.element('div').id('main')] the element part has been applied
    on the lineage, and a second [element] throws the order error, not the
    occurrence error. *)
Lemma cardinality_on_lineage_counterexample :
  ∃ b w,
    chain [(Element, "div"); (Id, "main")] Singleton init = (Normal b, w)
    ∧ once Element = true
    ∧ Element ∈ [(Element, "div"); (Id, "main")].*1
    ∧ fst (element b "span" w) = Throw OrderViolation
    ∧ fst (element b "span" w) ≠ Throw CardinalityViolation.
Proof.
  eexists _, _. split; [vm_compute; reflexivity|].
  split; [reflexivity|]. split; [set_solver|].
  split; [vm_compute; reflexivity|].
  vm_compute. discriminate.
Qed.

(** C2, amended. On a builder reached by a chain of successful
    add-operations, an add-operation for a one-time part (element, id,
    pseudo-element) that is in the chain throws: the occurrence error when
    the builder's [order] is the part's ordinal (nothing later was added
    since), the order error when a later part was added since.  In general
    the occurrence error is thrown exactly when the order check passes and
    the part's occurrence property reads 1.  [class], [attr] and
    [pseudoClass] never throw the occurrence error; [id] called on what [id]
    returned throws it; [builder.class('a').class('b').stringify()] is
    [.a.b]. *)
Theorem cardinality_violation_on_lineage :
  (∀ calls b0 w0 b w p value,
     chain calls b0 w0 = (Normal b, w) →
     once p = true →
     p ∈ calls.*1 →
     (read_order b w = ordinal p
      ∧ fst (add p b value w) = Throw CardinalityViolation)
     ∨ (ordinal p < read_order b w
        ∧ fst (add p b value w) = Throw OrderViolation))
  ∧ (∀ p this value w,
       fst (add p this value w) = Throw CardinalityViolation
       ↔ read_order this w ≤ ordinal p ∧ read_occur p this w = Some 1)
  ∧ (∀ p this value w,
       once p = false →
       fst (add p this value w) ≠ Throw CardinalityViolation)
  ∧ (∀ this value w b w1 x,
       id this value w = (Normal b, w1) →
       fst (id b x w1) = Throw CardinalityViolation)
  ∧ fst ((b <- chain [(Class, "a"); (Class, "b")] Singleton;; stringify b)
           init) = Normal ".a.b".
Proof.
  split; [|split; [|split; [|split]]].
  - intros calls b0 w0 b w p value Hchain Honce Hin.
    assert (Hm : marked (reverse calls.*1 ++ []) b w).
    { eapply marked_chain; [|exact Hchain]. intros q Hq. by apply elem_of_nil in Hq. }
    rewrite app_nil_r in Hm.
    destruct (Hm p) as [Hreached Hocc]; [by apply elem_of_reverse|exact Honce|].
    destruct (Z.eq_dec (read_order b w) (ordinal p)) as [Heq|Hne].
    + left. split; [exact Heq|].
      apply cardinality_violation_iff. split; [lia|auto].
    + right. split; [lia|].
      rewrite add_run.
      destruct (Z.gtb_spec (read_order b w) (ordinal p)); [reflexivity|lia].
  - intros. apply cardinality_violation_iff.
  - intros p this value w Hp Hthrow.
    apply cardinality_violation_iff in Hthrow as [_ Hocc].
    destruct p; discriminate.
  - intros this value w b w1 x Hid.
    apply (add_success Id) in Hid as (_ & _ & -> & ->).
    change (id ?b x ?w) with (add Id b x w).
    apply cardinality_violation_iff.
    rewrite read_order_assigned, read_occur_assigned by reflexivity.
    split; [reflexivity|reflexivity].
  - vm_compute; reflexivity.
Qed.

(** [builder.element('div').id('main')]: a second [id] throws the
    occurrence error, a second [element] the order error. *)
Lemma cardinality_violation_on_lineage_witness :
  ∃ b w,
    chain [(Element, "div"); (Id, "main")] Singleton init = (Normal b, w)
    ∧ fst (add Id b "other" w) = Throw CardinalityViolation
    ∧ fst (add Element b "span" w) = Throw OrderViolation
    ∧ fst (add Class b "wide" w) ≠ Throw CardinalityViolation.
Proof.
  pose proof cardinality_violation_on_lineage as (Hchain & _ & Hmany & _).
  set (calls := [(Element, "div"); (Id, "main")]).
  set (w := snd (chain calls Singleton init)).
  assert (Hrun : chain calls Singleton init = (Normal (Derived 2%positive), w))
    by (vm_compute; reflexivity).
  exists (Derived 2%positive), w. split; [exact Hrun|]. split; [|split].
  - destruct (Hchain calls Singleton init _ w Id "other" Hrun)
      as [[_ H]|[Hlt _]];
      [reflexivity|simpl; repeat constructor|exact H|].
    vm_compute in Hlt. discriminate Hlt.
  - destruct (Hchain calls Singleton init _ w Element "span" Hrun)
      as [[Heq _]|[_ H]];
      [reflexivity|simpl; repeat constructor| |exact H].
    vm_compute in Heq. discriminate Heq.
  - apply Hmany. reflexivity.
Defined.

(** ** What the operations return *)

Lemma fresh_not_allocated w : ¬ allocated (Derived (fresh (dom (objs w)))) w.
Proof. simpl. apply is_fresh. Qed.

Lemma allocated_extend l o w : allocated (Derived l) (extend l o w).
Proof. simpl. apply elem_of_dom. rewrite lookup_insert_eq. eauto. Qed.

(** C3, as stated, fails on "all other flags are copied from the receiver":
    [builder.element('div')] has [occurEl] 1, and the builder that
    [id('main')] makes from it has [occurEl] 0. *)
Lemma other_flags_copied_counterexample :
  ∃ b w1 b' w2,
    element Singleton "div" init = (Normal b, w1)
    ∧ id b "main" w1 = (Normal b', w2)
    ∧ read_occurEl b w1 = 1
    ∧ read_occurEl b' w2 = 0
    ∧ read_occurEl b' w2 ≠ read_occurEl b w1.
Proof.
  eexists _, _, _, _.
  split; [vm_compute; reflexivity|]. split; [vm_compute; reflexivity|].
  split; [vm_compute; reflexivity|]. split; [vm_compute; reflexivity|].
  vm_compute. discriminate.
Qed.

(** C3, amended. A successful add-operation returns a new object whose
    [result] is the receiver's followed by the part's formatted value,
    whose [order] is the part's ordinal, whose own occurrence property (for
    element, id, pseudo-element) reads 1, and whose other occurrence
    properties read what the singleton's do, 0 while the singleton holds
    its declared values, whatever the receiver's were. *)
Theorem add_returns (p : part) (this : ref) (value : string) (w w' : world)
    (b : ref) :
  add p this value w = (Normal b, w') →
  ¬ allocated b w
  ∧ allocated b w'
  ∧ read_result b w' = read_result this w +:+ formatted p value
  ∧ read_order b w' = ordinal p
  ∧ (once p = true → read_occur p b w' = Some 1)
  ∧ (∀ q, q ≠ p → read_occur q b w' = read_occur q Singleton w)
  ∧ (proto w = declared →
     ∀ q, q ≠ p → once q = true → read_occur q b w' = Some 0).
Proof.
  intros Hadd. apply add_success in Hadd as (_ & _ & -> & ->).
  set (l := fresh (dom (objs w))).
  set (s := read_result this w +:+ formatted p value).
  assert (Hother : ∀ q, q ≠ p →
            read_occur q (Derived l) (extend l (assigned p s) w)
            = read_occur q Singleton w).
  { intros q Hq. pose proof (snapshot_assigned l p s w) as H.
    unfold snapshot in H. injection H as _ _ HEl HId HPE.
    destruct q, p; try congruence; simpl; by f_equal. }
  split; [apply fresh_not_allocated|].
  split; [apply allocated_extend|].
  split; [apply read_result_assigned|].
  split; [apply read_order_assigned|].
  split; [apply read_occur_assigned|].
  split; [exact Hother|].
  intros Hdecl q Hq Honce. rewrite Hother by exact Hq.
  destruct q; try discriminate Honce; simpl; by rewrite Hdecl.
Qed.

(** [builder.element('div')] then [id('main')]: the result is [div#main],
    the order 2, [occurId] 1 and [occurEl] 0. *)
Lemma add_returns_witness :
  ∃ b w1 b' w2,
    element Singleton "div" init = (Normal b, w1)
    ∧ add Id b "main" w1 = (Normal b', w2)
    ∧ read_result b' w2 = "div#main"
    ∧ read_order b' w2 = 2
    ∧ read_occur Id b' w2 = Some 1
    ∧ read_occur Element b' w2 = Some 0.
Proof.
  eexists _, _, _, _.
  split; [vm_compute; reflexivity|].
  assert (Hadd : add Id (Derived 1%positive) "main"
                   (snd (element Singleton "div" init))
                 = (Normal (Derived 2%positive),
                    snd (add Id (Derived 1%positive) "main"
                           (snd (element Singleton "div" init)))))
    by (vm_compute; reflexivity).
  split; [exact Hadd|].
  destruct (add_returns _ _ _ _ _ _ Hadd)
    as (_ & _ & Hres & Hord & Hown & _ & Hzero).
  split; [rewrite Hres; vm_compute; reflexivity|].
  split; [exact Hord|].
  split; [apply Hown; reflexivity|].
  apply Hzero; [reflexivity|discriminate|reflexivity].
Defined.

(** C4. While the singleton holds its declared values, [combine] returns a
    new object whose [result] is the first selector's, a space, the
    combinator, a space, the second selector's, and whose [order] and
    occurrence properties read 0. *)
Theorem combine_returns (selector1 selector2 : ref) (combinator : string)
    (w : world) :
  proto w = declared →
  ∃ comb w',
    combine selector1 combinator selector2 w = (Normal comb, w')
    ∧ ¬ allocated comb w
    ∧ allocated comb w'
    ∧ read_result comb w' =
        read_result selector1 w +:+ " " +:+ combinator +:+ " "
        +:+ read_result selector2 w
    ∧ read_order comb w' = 0
    ∧ read_occurEl comb w' = 0
    ∧ read_occurId comb w' = 0
    ∧ read_occurPE comb w' = 0.
Proof.
  intros Hdecl. eexists _, _. split; [apply combine_run|].
  split; [apply fresh_not_allocated|].
  split; [apply allocated_extend|].
  match goal with
  | |- context [extend ?l ?o w] =>
      destruct (snapshot_fields _ _ _ _ _ _ _ (snapshot_new l o w))
        as (Hres & Hord & HEl & HId & HPE)
  end.
  rewrite Hres, Hord, HEl, HId, HPE, Hdecl. simpl. auto 10.
Qed.

(** [builder.combine(builder.element('div'), '+', builder.element('p'))]
    reads [div + p]. *)
Lemma combine_returns_witness :
  ∃ a w1 b w2 comb w3,
    element Singleton "div" init = (Normal a, w1)
    ∧ element Singleton "p" w1 = (Normal b, w2)
    ∧ combine a "+" b w2 = (Normal comb, w3)
    ∧ read_result comb w3 = "div + p"
    ∧ read_order comb w3 = 0
    ∧ read_occurEl comb w3 = 0.
Proof.
  eexists _, _, _, _.
  assert (Hdecl : proto (snd (element Singleton "p"
                                (snd (element Singleton "div" init))))
                  = declared) by (vm_compute; reflexivity).
  destruct (combine_returns (Derived 1%positive) (Derived 2%positive) "+"
              _ Hdecl)
    as (comb & w3 & Hrun & _ & _ & Hres & Hord & HEl & _).
  exists comb, w3.
  split; [vm_compute; reflexivity|]. split; [vm_compute; reflexivity|].
  split; [exact Hrun|].
  split; [rewrite Hres; vm_compute; reflexivity|].
  split; [exact Hord|exact HEl].
Defined.

(** C9. [combine] returns normally for every pair of builders and every
    combinator string: no error is thrown, whatever the two builders'
    [order] and occurrence properties are and whatever the string is. *)
Theorem combine_never_throws (selector1 selector2 : ref)
    (combinator : string) (w : world) :
  (∃ comb w', combine selector1 combinator selector2 w = (Normal comb, w'))
  ∧ (∀ e, fst (combine selector1 combinator selector2 w) ≠ Throw e).
Proof.
  rewrite combine_run. split; [eauto|]. intros e. discriminate.
Qed.

(** ** What the operations leave alone *)

Lemma add_frame p this value w c w' :
  add p this value w = (c, w') →
  frame w w'
  ∧ match c with
    | Normal b => ¬ allocated b w ∧ allocated b w'
    | Throw _ => objs w' = objs w
    end.
Proof.
  rewrite add_run.
  destruct (read_order this w >? ordinal p).
  - intros [= <- <-]. split; [apply frame_refl|reflexivity].
  - case_bool_decide; intros [= <- <-].
    + split; [apply frame_console|reflexivity].
    + split; [apply frame_extend, fresh_unused|].
      split; [apply fresh_not_allocated|apply allocated_extend].
Qed.

(** The singleton keeps its declared values in every reachable world. *)
Lemma reachable_declared w : reachable w → proto w = declared.
Proof.
  induction 1 as [|p this value w _ IH|selector1 combinator selector2 w _ IH].
  - reflexivity.
  - destruct (add p this value w) as [c w'] eqn:Hadd.
    apply add_frame in Hadd as [[Hproto _] _]. simpl. congruence.
  - rewrite combine_run. exact IH.
Qed.

(** C5. An add-operation or [combine] changes neither the singleton nor
    any object already in the store, so every builder (the receiver, the
    arguments, the singleton) reads after the call as before it.  A call
    that returns has stored one object more, at an address not in use
    before; a call that throws has stored none. *)
Theorem operations_are_pure (w : world) :
  (∀ p this value c w',
     add p this value w = (c, w') →
     frame w w'
     ∧ (∀ o, allocated o w → snapshot o w' = snapshot o w)
     ∧ match c with
       | Normal b => ¬ allocated b w ∧ allocated b w'
       | Throw _ => objs w' = objs w
       end)
  ∧ (∀ selector1 combinator selector2 c w',
       combine selector1 combinator selector2 w = (c, w') →
       frame w w'
       ∧ (∀ o, allocated o w → snapshot o w' = snapshot o w)
       ∧ ∃ comb, c = Normal comb ∧ ¬ allocated comb w ∧ allocated comb w').
Proof.
  split.
  - intros p this value c w' Hadd.
    apply add_frame in Hadd as [Hframe Hc].
    split; [exact Hframe|]. split; [|exact Hc].
    intros o Ho. by apply frame_snapshot.
  - intros selector1 combinator selector2 c w'.
    rewrite combine_run. intros [= <- <-].
    assert (Hframe : ∀ o, frame w (extend (fresh (dom (objs w))) o w))
      by (intros o; apply frame_extend, fresh_unused).
    split; [apply Hframe|]. split.
    + intros o Ho. by apply frame_snapshot.
    + eexists. split; [reflexivity|].
      split; [apply fresh_not_allocated|apply allocated_extend].
Qed.

(** [builder.element('div')], then [id('main')] on it, then a second
    [element] on it, which throws: the partial builder reads [div], order
    1, as before, and the failed call has stored nothing. *)
Lemma operations_are_pure_witness :
  ∃ b w1 b' w2 e w3,
    element Singleton "div" init = (Normal b, w1)
    ∧ add Id b "main" w1 = (Normal b', w2)
    ∧ snapshot b w2 = snapshot b w1
    ∧ snapshot Singleton w2 = snapshot Singleton init
    ∧ add Element b "span" w2 = (Throw e, w3)
    ∧ objs w3 = objs w2
    ∧ snapshot b w3 = ("div", 1, 1, 0, 0).
Proof.
  eexists _, _, _, _, _, _.
  split; [vm_compute; reflexivity|].
  assert (Hid : add Id (Derived 1%positive) "main"
                  (snd (element Singleton "div" init))
                = (Normal (Derived 2%positive),
                   snd (add Id (Derived 1%positive) "main"
                          (snd (element Singleton "div" init)))))
    by (vm_compute; reflexivity).
  assert (Hel : add Element (Derived 1%positive) "span"
                  (snd (add Id (Derived 1%positive) "main"
                          (snd (element Singleton "div" init))))
                = (Throw CardinalityViolation,
                   snd (add Element (Derived 1%positive) "span"
                          (snd (add Id (Derived 1%positive) "main"
                                  (snd (element Singleton "div" init)))))))
    by (vm_compute; reflexivity).
  destruct (proj1 (operations_are_pure _) _ _ _ _ _ Hid) as (_ & Hsame & _).
  destruct (proj1 (operations_are_pure _) _ _ _ _ _ Hel) as (_ & Hsame' & Hobjs).
  split; [exact Hid|].
  split; [apply Hsame; vm_compute; reflexivity|].
  split; [rewrite Hsame by exact I; vm_compute; reflexivity|].
  split; [exact Hel|].
  split; [exact Hobjs|].
  rewrite Hsame' by (vm_compute; reflexivity).
  vm_compute; reflexivity.
Defined.

(** A partial builder serves two selectors. *)
Example partial_builder_reused :
  fst ((div <- element Singleton "div";;
        first <- id div "main";;
        second <- class div "wide";;
        s1 <- stringify first;;
        s2 <- stringify second;;
        ret (s1, s2)) init) = Normal ("div#main", "div.wide").
Proof. vm_compute; reflexivity. Qed.

(** ** Rendering *)

(** C6. [stringify] returns the builder's [result] as it is and changes
    nothing; any number of calls in a row return that same string each and
    leave the world as it was. *)
Theorem stringify_idempotent (this : ref) (w : world) (n : nat) :
  stringify this w = (Normal (read_result this w), w)
  ∧ stringify_times n this w = (Normal (replicate n (read_result this w)), w).
Proof.
  split; [reflexivity|].
  induction n as [|n IH]; [reflexivity|].
  simpl. unfold bind at 1. unfold stringify at 1, get.
  unfold bind. rewrite IH. reflexivity.
Qed.

(** C7. The two chains of the documentation, from the singleton:
    [id('main').class('container').class('editable')] renders
    [#main.container.editable], and
    [element('a').attr('href$=".png"').pseudoClass('focus')] renders
    [a[href$=".png"]:focus]. *)
Theorem documented_chains :
  fst ((b1 <- id Singleton "main";;
        b2 <- class b1 "container";;
        b3 <- class b2 "editable";;
        stringify b3) init)
  = Normal "#main.container.editable"
  ∧ fst ((b1 <- element Singleton "a";;
          b2 <- attr b1 ("href$=" +:+ dquote +:+ ".png" +:+ dquote);;
          b3 <- pseudoClass b2 "focus";;
          stringify b3) init)
    = Normal ("a[href$=" +:+ dquote +:+ ".png" +:+ dquote +:+ "]:focus").
Proof. split; vm_compute; reflexivity. Qed.

(** The third chain of the documentation: nested [combine] with [+], [~]
    and a space, the last one giving three spaces in a row. *)
Example documented_combination :
  fst ((div <- element Singleton "div";;
        div <- id div "main";;
        div <- class div "container";;
        div <- class div "draggable";;
        table <- element Singleton "table";;
        table <- id table "data";;
        tr <- element Singleton "tr";;
        tr <- pseudoClass tr "nth-of-type(even)";;
        td <- element Singleton "td";;
        td <- pseudoClass td "nth-of-type(even)";;
        inner <- combine tr " " td;;
        middle <- combine table "~" inner;;
        outer <- combine div "+" middle;;
        stringify outer) init)
  = Normal "div#main.container.draggable + table#data ~ tr:nth-of-type(even)   td:nth-of-type(even)".
Proof. vm_compute; reflexivity. Qed.

(** [combine] takes a string that is no CSS combinator, and builders in
    any state. *)
Example combine_any_string :
  fst ((a <- pseudoElement Singleton "after";;
        b <- id Singleton "main";;
        c <- combine a "and then" b;;
        stringify c) init) = Normal "::after and then #main".
Proof. vm_compute; reflexivity. Qed.

(** ** Chains of calls *)

Lemma append_assoc (s1 s2 s3 : string) : (s1 +:+ s2) +:+ s3 = s1 +:+ s2 +:+ s3.
Proof.
  induction s1 as [|c s1 IH]; [reflexivity|].
  change (String c ((s1 +:+ s2) +:+ s3) = String c (s1 +:+ s2 +:+ s3)).
  by rewrite IH.
Qed.

Lemma append_empty_r (s : string) : s +:+ "" = s.
Proof.
  induction s as [|c s IH]; [reflexivity|].
  change (String c (s +:+ "") = String c s). by rewrite IH.
Qed.





Lemma chain_result calls : ∀ this w b w',
  chain calls this w = (Normal b, w') →
  read_result b w' = read_result this w +:+ rendered calls.
Proof.
  induction calls as [|[p value] rest IH]; intros this w b w' Hchain.
  - injection Hchain as <- <-. simpl. by rewrite append_empty_r.
  - simpl in Hchain. unfold bind in Hchain.
    destruct (add p this value w) as [[b1|e] w1] eqn:Hadd; [|discriminate].
    apply IH in Hchain. rewrite Hchain.
    apply add_success in Hadd as (_ & _ & -> & ->).
    rewrite read_result_assigned. simpl. apply append_assoc.
Qed.

(** X1. A chain of add-operations that returns has appended the formatted
    values of its calls, in the order of the calls, to the receiver's
    [result], and that is what [stringify] returns on the builder it
    made. *)
Theorem chain_renders (calls : list (part * string)) (this b : ref)
    (w w' : world) :
  chain calls this w = (Normal b, w') →
  read_result b w' = read_result this w +:+ rendered calls
  ∧ stringify b w' = (Normal (read_result this w +:+ rendered calls), w').
Proof.
  intros Hchain. apply chain_result in Hchain.
  split; [exact Hchain|]. unfold stringify, get. by rewrite Hchain.
Qed.

(** [builder.element('div').id('main').class('wide')] renders
    [div#main.wide]. *)
Lemma chain_renders_witness :
  ∃ b w',
    chain [(Element, "div"); (Id, "main"); (Class, "wide")] Singleton init
    = (Normal b, w')
    ∧ fst (stringify b w') = Normal "div#main.wide".
Proof.
  set (calls := [(Element, "div"); (Id, "main"); (Class, "wide")]).
  set (w' := snd (chain calls Singleton init)).
  assert (Hrun : chain calls Singleton init = (Normal (Derived 3%positive), w'))
    by (vm_compute; reflexivity).
  exists (Derived 3%positive), w'. split; [exact Hrun|].
  rewrite (proj2 (chain_renders calls Singleton _ init w' Hrun)).
  vm_compute; reflexivity.
Defined.

(** ** The sequences the builder accepts *)

Lemma add_succeeds_iff p this value w :
  (∃ b w', add p this value w = (Normal b, w'))
  ↔ read_order this w ≤ ordinal p ∧ read_occur p this w ≠ Some 1.
Proof.
  split.
  - intros (b & w' & Hadd). apply add_success in Hadd. tauto.
  - intros [Hle Hocc]. rewrite add_run.
    destruct (Z.gtb_spec (read_order this w) (ordinal p)); [lia|].
    rewrite bool_decide_eq_false_2 by exact Hocc. eauto.
Qed.

Lemma add_just_added p this value w b w' :
  proto w = declared →
  add p this value w = (Normal b, w') →
  proto w' = declared ∧ just_added p b w'.
Proof.
  intros Hdecl Hadd. apply add_success in Hadd as (_ & _ & -> & ->).
  split; [exact Hdecl|]. split; [apply read_order_assigned|].
  intros q Hq.
  destruct (snapshot_fields _ _ _ _ _ _ _
              (snapshot_assigned (fresh (dom (objs w))) p
                 (read_result this w +:+ formatted p value) w))
    as (_ & _ & HEl & HId & HPE).
  destruct q; try discriminate Hq; unfold read_occur;
    rewrite ?HEl, ?HId, ?HPE, Hdecl; destruct p; simpl; split; intros H;
    try reflexivity; discriminate H.
Qed.

Lemma grammatical_cons p q l :
  grammatical (p :: q :: l)
  ↔ ordinal p ≤ ordinal q ∧ ¬ (once q = true ∧ q = p) ∧ grammatical (q :: l).
Proof.
  unfold grammatical. split.
  - intros [Hs Hn]. apply StronglySorted_inv in Hs as [Hs Hall].
    split; [by inversion Hall|]. split.
    + intros [Hq ->].
      rewrite !filter_cons_True in Hn by exact Hq.
      apply NoDup_cons in Hn as [Hnotin _]. apply Hnotin. left.
    + split; [exact Hs|].
      rewrite (filter_cons _ p) in Hn. case_decide; [|exact Hn].
      by apply NoDup_cons in Hn as [_ Hn].
  - intros (Hle & Hne & Hs & Hn). split.
    + constructor; [exact Hs|].
      apply StronglySorted_inv in Hs as [_ Hall].
      constructor; [exact Hle|].
      eapply Forall_impl; [exact Hall|]. simpl. intros x Hx. lia.
    + rewrite (filter_cons _ p). case_decide as Hp; [|exact Hn].
      apply NoDup_cons. split; [|exact Hn].
      intros Hin. apply list_elem_of_filter in Hin as [_ Hin].
      apply elem_of_cons in Hin as [->|Hin]; [by apply Hne|].
      apply StronglySorted_inv in Hs as [_ Hall].
      rewrite Forall_forall in Hall. specialize (Hall p Hin). simpl in Hall.
      apply Hne. split; [|apply ordinal_inj; lia].
      assert (q = p) as -> by (apply ordinal_inj; lia). exact Hp.
Qed.

Lemma grammatical_one p : grammatical [p].
Proof.
  split; [repeat constructor|].
  rewrite filter_cons. case_decide; [apply NoDup_singleton|apply NoDup_nil_2].
Qed.

Lemma chain_after rest : ∀ p b w,
  proto w = declared → just_added p b w →
  (∃ b' w', chain rest b w = (Normal b', w')) ↔ grammatical (p :: rest.*1).
Proof.
  induction rest as [|[q value] rest IH]; intros p b w Hdecl [Hord Hocc].
  - split; [intros _; apply grammatical_one|]. intros _. by eexists _, _.
  - simpl. rewrite grammatical_cons.
    assert (Hcheck : read_occur q b w ≠ Some 1 ↔ ¬ (once q = true ∧ q = p)).
    { destruct (once q) eqn:Hq.
      - rewrite (Hocc q Hq). tauto.
      - split; [intros _ [? _]; discriminate|].
        intros _. destruct q; discriminate. }
    split.
    + intros (b' & w' & Hchain). unfold bind in Hchain.
      destruct (add q b value w) as [[b1|e] w1] eqn:Hadd; [|discriminate].
      destruct (add_just_added _ _ _ _ _ _ Hdecl Hadd) as [Hdecl1 Hjust].
      apply add_success in Hadd as (Hle & Hno & _).
      split; [lia|]. split; [by apply Hcheck|].
      apply (IH q b1 w1 Hdecl1 Hjust). eauto.
    + intros (Hle & Hne & Hrest).
      destruct (proj2 (add_succeeds_iff q b value w)) as (b1 & w1 & Hadd).
      { split; [lia|by apply Hcheck]. }
      destruct (add_just_added _ _ _ _ _ _ Hdecl Hadd) as [Hdecl1 Hjust].
      unfold bind. rewrite Hadd. by apply (IH q b1 w1 Hdecl1 Hjust).
Qed.

(** X2. While the singleton holds its declared values, a chain of
    add-operations on a blank builder (the singleton, or what [combine]
    returned) runs without an error exactly when its parts are in
    grammar order and no one-time part occurs twice. *)
Theorem builder_accepts (calls : list (part * string)) (b : ref) (w : world) :
  proto w = declared →
  blank b w →
  (∃ b' w', chain calls b w = (Normal b', w')) ↔ grammatical calls.*1.
Proof.
  intros Hdecl (Hord & HEl & HId & HPE).
  destruct calls as [|[q value] rest].
  - split; [intros _; split; constructor|]. intros _. by eexists _, _.
  - destruct (proj2 (add_succeeds_iff q b value w)) as (b1 & w1 & Hadd).
    { split; [rewrite Hord; destruct q; simpl; lia|].
      destruct q; simpl; congruence. }
    destruct (add_just_added _ _ _ _ _ _ Hdecl Hadd) as [Hdecl1 Hjust].
    simpl. unfold bind. rewrite Hadd. by apply chain_after.
Qed.

(** [element, class, class] is accepted; [class, id] is not. *)
Lemma builder_accepts_witness :
  (∃ b' w',
     chain [(Element, "div"); (Class, "a"); (Class, "b")] Singleton init
     = (Normal b', w'))
  ∧ ¬ (∃ b' w',
         chain [(Class, "a"); (Id, "main")] Singleton init = (Normal b', w')).
Proof.
  assert (Hblank : blank Singleton init)
    by (repeat split; vm_compute; discriminate).
  split.
  - apply (proj2 (builder_accepts
                    [(Element, "div"); (Class, "a"); (Class, "b")]
                    Singleton init eq_refl Hblank)).
    split.
    + repeat constructor; simpl; lia.
    + vm_compute. apply NoDup_singleton.
  - intros Hruns.
    apply (proj1 (builder_accepts [(Class, "a"); (Id, "main")]
                    Singleton init eq_refl Hblank)) in Hruns as [Hsorted _].
    apply StronglySorted_inv in Hsorted as [_ Hall].
    apply Forall_cons in Hall as [Hle _]. simpl in Hle. lia.
Defined.

(** X3. While the singleton holds its declared values, what [combine]
    returns takes any add-operation next, whatever parts its two halves
    are made of: the call returns a builder whose [result] is the combined
    string followed by the formatted value. *)
Theorem combined_accepts_any_part
    (selector1 selector2 : ref) (combinator : string) (w w' : world)
    (comb : ref) (p : part) (value : string) :
  proto w = declared →
  combine selector1 combinator selector2 w = (Normal comb, w') →
  ∃ b w'',
    add p comb value w' = (Normal b, w'')
    ∧ read_result b w'' =
        (read_result selector1 w +:+ " " +:+ combinator +:+ " "
         +:+ read_result selector2 w) +:+ formatted p value.
Proof.
  intros Hdecl. rewrite combine_run. intros [= <- <-].
  match goal with
  | |- context [extend ?l ?o w] =>
      destruct (snapshot_fields _ _ _ _ _ _ _ (snapshot_new l o w))
        as (Hres & Hord & HEl & HId & HPE)
  end.
  rewrite Hdecl in Hord, HEl, HId, HPE.
  match goal with
  | |- context [add p ?c value ?w1] =>
      destruct (proj2 (add_succeeds_iff p c value w1)) as (b & w2 & Hadd)
  end.
  { rewrite Hord. split; [destruct p; simpl; lia|].
    destruct p; unfold read_occur; rewrite ?HEl, ?HId, ?HPE; discriminate. }
  exists b, w2. split; [exact Hadd|].
  apply add_success in Hadd as (_ & _ & -> & ->).
  by rewrite read_result_assigned, Hres.
Qed.

(** [builder.combine(builder.pseudoElement('after'), '>',
    builder.pseudoElement('before')).element('div')] returns, and reads
    [::after > ::beforediv]. *)
Lemma combined_accepts_any_part_witness :
  ∃ comb w3 b w4,
    (a <- pseudoElement Singleton "after";;
     b <- pseudoElement Singleton "before";;
     combine a ">" b) init = (Normal comb, w3)
    ∧ add Element comb "div" w3 = (Normal b, w4)
    ∧ read_result b w4 = "::after > ::beforediv".
Proof.
  set (w2 := snd ((a <- pseudoElement Singleton "after";;
                   pseudoElement Singleton "before") init)).
  set (w3 := snd (combine (Derived 1%positive) ">" (Derived 2%positive) w2)).
  assert (Hdecl : proto w2 = declared) by (vm_compute; reflexivity).
  assert (Hcombine : combine (Derived 1%positive) ">" (Derived 2%positive) w2
                     = (Normal (Derived 3%positive), w3))
    by (vm_compute; reflexivity).
  destruct (combined_accepts_any_part (Derived 1%positive) (Derived 2%positive)
              ">" w2 w3 (Derived 3%positive) Element "div" Hdecl Hcombine)
    as (b & w4 & Hadd & Hres).
  exists (Derived 3%positive), w3, b, w4.
  split; [vm_compute; reflexivity|]. split; [exact Hadd|].
  rewrite Hres. vm_compute; reflexivity.
Defined.

(** ** The store of a run *)

Lemma reachable_shaped w :
  reachable w → ∀ l o, objs w !! l = Some o → shaped o.
Proof.
  induction 1 as [|p this value w _ IH|selector1 combinator selector2 w _ IH];
    intros l o.
  - simpl. by rewrite lookup_empty.
  - rewrite add_run.
    destruct (read_order this w >? ordinal p); [apply IH|].
    case_bool_decide; [apply IH|]. simpl.
    rewrite lookup_insert. case_decide; [|apply IH].
    intros [= <-]. left. eauto.
  - rewrite combine_run. simpl.
    rewrite lookup_insert. case_decide; [|apply IH].
    intros [= <-]. right. eauto.
Qed.

(** X4. In every world reached from the declaration through the methods,
    every builder has an [order] from 0 to 6 and occurrence properties that
    are 0 or 1, and an occurrence property is 1 exactly when [order] is the
    ordinal of its part: [occurEl] with 1, [occurId] with 2, [occurPE]
    with 6. *)
Theorem occurrence_follows_order (w : world) (b : ref) :
  reachable w →
  allocated b w →
  0 ≤ read_order b w ≤ 6
  ∧ (read_occurEl b w = 1 ↔ read_order b w = 1)
  ∧ (read_occurId b w = 1 ↔ read_order b w = 2)
  ∧ (read_occurPE b w = 1 ↔ read_order b w = 6)
  ∧ (read_occurEl b w = 0 ∨ read_occurEl b w = 1)
  ∧ (read_occurId b w = 0 ∨ read_occurId b w = 1)
  ∧ (read_occurPE b w = 0 ∨ read_occurPE b w = 1).
Proof.
  intros Hreach Hb.
  pose proof (reachable_declared w Hreach) as Hdecl.
  destruct b as [|l].
  - simpl. rewrite Hdecl. simpl. repeat split; intros; try lia; auto.
  - simpl in Hb. apply elem_of_dom in Hb as [o Ho].
    unfold read_order, read_occurEl, read_occurId, read_occurPE, own_at.
    rewrite Ho, Hdecl. simpl.
    destruct (reachable_shaped w Hreach l o Ho) as [(p & s & ->)|(s & ->)].
    + destruct p; simpl; repeat split; intros; try lia; auto.
    + simpl. repeat split; intros; try lia; auto.
Qed.

(** After [builder.element('div').id('main')] the builder read has order
    2, so [occurId] 1 and [occurEl] other than 1. *)
Lemma occurrence_follows_order_witness :
  let w1 := snd (add Element Singleton "div" init) in
  let w2 := snd (add Id (Derived 1%positive) "main" w1) in
  read_order (Derived 2%positive) w2 = 2
  ∧ read_occurId (Derived 2%positive) w2 = 1
  ∧ read_occurEl (Derived 2%positive) w2 ≠ 1.
Proof.
  intros w1 w2.
  assert (Hreach : reachable w2)
    by (apply reachable_add, reachable_add, reachable_init).
  assert (Halloc : allocated (Derived 2%positive) w2).
  { unfold allocated. apply elem_of_dom. eexists. vm_compute. reflexivity. }
  destruct (occurrence_follows_order w2 (Derived 2%positive) Hreach Halloc)
    as (_ & HEl & HId & _).
  assert (Hord : read_order (Derived 2%positive) w2 = 2)
    by (vm_compute; reflexivity).
  split; [exact Hord|]. split; [by apply HId|].
  intros H. apply HEl in H. rewrite Hord in H. discriminate H.
Defined.

(** X5. An add-operation writes to the console exactly when it throws
    the occurrence error, and then it writes the number 1; [combine] does
    not write to it; so the console of a run holds only 1s, one for each
    occurrence error thrown. *)
Theorem console_only_on_occurrence_error :
  (∀ p this value w c w',
     add p this value w = (c, w') →
     (c = Throw CardinalityViolation → console w' = console w ++ [1])
     ∧ (c ≠ Throw CardinalityViolation → console w' = console w))
  ∧ (∀ selector1 combinator selector2 w c w',
       combine selector1 combinator selector2 w = (c, w') →
       console w' = console w)
  ∧ (∀ w, reachable w → Forall (λ v, v = 1) (console w)).
Proof.
  assert (Hadd : ∀ p this value w c w',
            add p this value w = (c, w') →
            (c = Throw CardinalityViolation → console w' = console w ++ [1])
            ∧ (c ≠ Throw CardinalityViolation → console w' = console w)).
  { intros p this value w c w'. rewrite add_run.
    destruct (read_order this w >? ordinal p).
    - intros [= <- <-]. split; [intros Hc; discriminate Hc|reflexivity].
    - case_bool_decide; intros [= <- <-].
      + split; [reflexivity|]. intros Hc. by destruct Hc.
      + split; [intros Hc; discriminate Hc|reflexivity]. }
  assert (Hcombine : ∀ selector1 combinator selector2 w c w',
            combine selector1 combinator selector2 w = (c, w') →
            console w' = console w).
  { intros selector1 combinator selector2 w c w'. rewrite combine_run.
    by intros [= <- <-]. }
  split; [exact Hadd|]. split; [exact Hcombine|].
  induction 1 as [|p this value w _ IH|selector1 combinator selector2 w _ IH].
  - constructor.
  - destruct (add p this value w) as [c w'] eqn:Hrun. simpl.
    destruct (Hadd _ _ _ _ _ _ Hrun) as [Hthrow Hother].
    destruct c as [b|[message]].
    + rewrite Hother by discriminate. exact IH.
    + destruct (decide (message = occur_message)) as [->|Hne].
      * rewrite Hthrow by reflexivity. apply Forall_app. split; [exact IH|].
        by constructor.
      * rewrite Hother by (intros [= ?]; contradiction). exact IH.
  - destruct (combine selector1 combinator selector2 w) as [c w'] eqn:Hrun.
    simpl. by rewrite (Hcombine _ _ _ _ _ _ Hrun).
Qed.

(** [builder.element('div')] leaves the console empty; a second
    [element] on it throws and logs 1. *)
Lemma console_only_on_occurrence_error_witness :
  let w1 := snd (add Element Singleton "div" init) in
  let w2 := snd (add Element (Derived 1%positive) "span" w1) in
  console w1 = [] ∧ console w2 = [1].
Proof.
  intros w1 w2.
  pose proof console_only_on_occurrence_error as (Hadd & _ & _).
  assert (H1 : add Element Singleton "div" init = (Normal (Derived 1%positive), w1))
    by (vm_compute; reflexivity).
  assert (H2 : add Element (Derived 1%positive) "span" w1
               = (Throw CardinalityViolation, w2))
    by (vm_compute; reflexivity).
  assert (Hw1 : console w1 = []).
  { rewrite (proj2 (Hadd _ _ _ _ _ _ H1)); [reflexivity|discriminate]. }
  split; [exact Hw1|].
  rewrite (proj1 (Hadd _ _ _ _ _ _ H2) eq_refl), Hw1. reflexivity.
Defined.

(** ** Reusing builders *)

Lemma observe_add p this value w :
  observe (add p this value w) =
    if read_order this w >? ordinal p then Throw OrderViolation
    else if bool_decide (read_occur p this w = Some 1)
    then Throw CardinalityViolation
    else Normal (read_result this w +:+ formatted p value, ordinal p,
                 match p with Element => 1 | _ => occurEl (proto w) end,
                 match p with Id => 1 | _ => occurId (proto w) end,
                 match p with PseudoElement => 1 | _ => occurPE (proto w) end).
Proof.
  rewrite add_run. destruct (read_order this w >? ordinal p); [reflexivity|].
  case_bool_decide; [reflexivity|]. simpl. by rewrite snapshot_assigned.
Qed.

Lemma snapshot_read_occur p o1 w1 o2 w2 :
  snapshot o1 w1 = snapshot o2 w2 → read_occur p o1 w1 = read_occur p o2 w2.
Proof.
  intros H. symmetry in H. apply snapshot_fields in H as (_ & _ & HEl & HId & HPE).
  destruct p; simpl; congruence.
Qed.

(** X6. What an add-operation throws or returns is decided by what the
    receiver reads and by the singleton alone: two receivers that read the
    same, in worlds with the same singleton, give the same error or
    builders that read the same.  So a builder gives after any other
    add-operation what it would have given before it. *)
Theorem outcome_depends_on_snapshot
    (p : part) (value : string) (this : ref) (w : world) :
  (∀ this' w',
     proto w' = proto w → snapshot this' w' = snapshot this w →
     observe (add p this' value w') = observe (add p this value w))
  ∧ (∀ q other value0 c w',
       allocated this w →
       add q other value0 w = (c, w') →
       observe (add p this value w') = observe (add p this value w)).
Proof.
  assert (Hsame : ∀ this' w',
            proto w' = proto w → snapshot this' w' = snapshot this w →
            observe (add p this' value w') = observe (add p this value w)).
  { intros this' w' Hproto Hsnap. rewrite !observe_add.
    rewrite (snapshot_read_occur p _ _ _ _ Hsnap), Hproto.
    apply snapshot_fields in Hsnap as (-> & -> & _). reflexivity. }
  split; [exact Hsame|].
  intros q other value0 c w' Hthis Hrun.
  apply add_frame in Hrun as [Hframe _].
  apply Hsame; [apply Hframe|by apply frame_snapshot].
Qed.

(** [div = builder.element('div')]: [div.class('wide')] reads [div.wide],
    order 3, before and after [div.id('main')]. *)
Lemma outcome_depends_on_snapshot_witness :
  let w1 := snd (add Element Singleton "div" init) in
  let w2 := snd (add Id (Derived 1%positive) "main" w1) in
  observe (add Class (Derived 1%positive) "wide" w2)
  = Normal ("div.wide", 3, 0, 0, 0).
Proof.
  intros w1 w2.
  assert (Halloc : allocated (Derived 1%positive) w1).
  { unfold allocated. apply elem_of_dom. eexists. vm_compute. reflexivity. }
  assert (Hid : add Id (Derived 1%positive) "main" w1
                = (Normal (Derived 2%positive), w2))
    by (vm_compute; reflexivity).
  rewrite (proj2 (outcome_depends_on_snapshot Class "wide"
                    (Derived 1%positive) w1)
             Id (Derived 1%positive) "main" _ w2 Halloc Hid).
  vm_compute; reflexivity.
Defined.



End cssSelectorBuilder.

(** ** Rectangle *)

(** C10. [Rectangle(width, height)] returns an object whose [width] is
    [width], whose [height] is [height] and whose [getArea()] returns
    [width * height]. *)
Theorem Rectangle_returns (number : Type) (times : number → number → number)
    (w h : number) :
  width (Rectangle times w h) = w
  ∧ height (Rectangle times w h) = h
  ∧ getArea (Rectangle times w h) () = times w h.
Proof. repeat split. Qed.

(** [new Rectangle(10, 20)], on integers. *)
Example Rectangle_10_20 :
  let r := Rectangle Z.mul 10 20 in
  width r = 10 ∧ height r = 20 ∧ getArea r () = 200.
Proof. repeat split. Qed.
